(** * geodesic.h: the C interface of the geodesic routines

    A shallow embedding of the declarations of [geodesic.h] (GeographicLib
    1.49, C port): the version macros, the capability masks [geod_mask], the
    flags [geod_flags], the ellipsoid record [geod_geodesic], and the
    documented contracts of [geod_init] and [geod_gendirect].

    C's [unsigned] is modelled as [Z] with the bit operations of [Z]
    ([Z.shiftl], [Z.lor], [Z.land], [Z.testbit]); every enumerator is shown to
    fit in 32 bits, so no wrap-around occurs.  C's [double] is Rocq's
    primitive binary64 [float]. *)

From Stdlib Require Import ZArith Lia List Bool.
From Stdlib Require Import Floats.
Import ListNotations.

Local Open Scope Z_scope.

(** ** Version macros *)

Module Version.

Definition GEODESIC_VERSION_MAJOR : Z := 1.
Definition GEODESIC_VERSION_MINOR : Z := 49.
Definition GEODESIC_VERSION_PATCH : Z := 0.

(** The components are integer constants: the macro computes in [int], 32
    bits wide on the platforms the library targets.  A result that [int]
    cannot hold is an overflow, which C leaves undefined: there is no value
    then. *)
Definition INT_MIN : Z := - 2 ^ 31.
Definition INT_MAX : Z := 2 ^ 31 - 1.

Definition int_result (x : Z) : option Z :=
  if (INT_MIN <=? x) && (x <=? INT_MAX) then Some x else None.

Definition int_mul (x y : Z) : option Z := int_result (x * y).
Definition int_add (x y : Z) : option Z := int_result (x + y).

Definition and_then (r : option Z) (k : Z -> option Z) : option Z :=
  match r with
  | Some x => k x
  | None => None
  end.

(** [#define GEODESIC_VERSION_NUM(a,b,c) ((((a) * 10000 + (b)) * 100) + (c))] *)
Definition GEODESIC_VERSION_NUM (a b c : Z) : option Z :=
  and_then (and_then (and_then (int_mul a 10000)
                               (fun x => int_add x b))
                     (fun y => int_mul y 100))
           (fun z => int_add z c).

Definition GEODESIC_VERSION : option Z :=
  GEODESIC_VERSION_NUM GEODESIC_VERSION_MAJOR
                       GEODESIC_VERSION_MINOR
                       GEODESIC_VERSION_PATCH.

End Version.

(** The header describes the packed number as [MMmmmmpp]: two decimal digits
    of patch level, four of minor version, the major version above them. *)
Module VersionFields.

Definition MINOR_RANGE : Z := 10000.
Definition PATCH_RANGE : Z := 100.

(** The components fit their digits. *)
Definition fits (b c : Z) : Prop :=
  0 <= b < MINOR_RANGE /\ 0 <= c < PATCH_RANGE.

(** The digit groups, read with C's [/] and [%] (which truncate towards
    zero: [Z.quot] and [Z.rem]). *)
Definition major_of (v : Z) : Z := Z.quot v (MINOR_RANGE * PATCH_RANGE).
Definition minor_of (v : Z) : Z := Z.rem (Z.quot v PATCH_RANGE) MINOR_RANGE.
Definition patch_of (v : Z) : Z := Z.rem v PATCH_RANGE.

(** The order of versions: major first, then minor, then patch. *)
Definition earlier (a b c a' b' c' : Z) : Prop :=
  a < a' \/ (a = a' /\ (b < b' \/ (b = b' /\ c < c'))).

End VersionFields.

(** ** Unsigned values *)

(** The enumerators are written with the suffix [U]: they are [unsigned]
    values, 32 bits wide on the platforms the library targets. *)
Definition UINT_WIDTH : Z := 32.

Definition is_unsigned (x : Z) : Prop := 0 <= x < 2 ^ UINT_WIDTH.

(** [bits_sub x y]: every bit of [x] is a bit of [y]. *)
Definition bits_sub (x y : Z) : Prop := Z.land y x = x.

Definition bits_subb (x y : Z) : bool := Z.land y x =? x.

(** ** [enum geod_mask] *)

Inductive geod_mask : Set :=
| GEOD_NONE
| GEOD_LATITUDE
| GEOD_LONGITUDE
| GEOD_AZIMUTH
| GEOD_DISTANCE
| GEOD_DISTANCE_IN
| GEOD_REDUCEDLENGTH
| GEOD_GEODESICSCALE
| GEOD_AREA
| GEOD_ALL.

(** The two operands of [GEOD_ALL = 0x7F80U | 0x1FU]: the high field selects
    the quantities, the low field holds what they depend on. *)
Definition OUT_FIELD : Z := 0x7F80.
Definition DEP_FIELD : Z := 0x1F.

(** The value of each enumerator, written as in the header. *)
Definition mask_value (m : geod_mask) : Z :=
  match m with
  | GEOD_NONE          => 0
  | GEOD_LATITUDE      => Z.lor (Z.shiftl 1 7) 0
  | GEOD_LONGITUDE     => Z.lor (Z.shiftl 1 8) (Z.shiftl 1 3)
  | GEOD_AZIMUTH       => Z.lor (Z.shiftl 1 9) 0
  | GEOD_DISTANCE      => Z.lor (Z.shiftl 1 10) (Z.shiftl 1 0)
  | GEOD_DISTANCE_IN   => Z.lor (Z.lor (Z.shiftl 1 11) (Z.shiftl 1 0)) (Z.shiftl 1 1)
  | GEOD_REDUCEDLENGTH => Z.lor (Z.lor (Z.shiftl 1 12) (Z.shiftl 1 0)) (Z.shiftl 1 2)
  | GEOD_GEODESICSCALE => Z.lor (Z.lor (Z.shiftl 1 13) (Z.shiftl 1 0)) (Z.shiftl 1 2)
  | GEOD_AREA          => Z.lor (Z.shiftl 1 14) (Z.shiftl 1 4)
  | GEOD_ALL           => Z.lor OUT_FIELD DEP_FIELD
  end.

Coercion mask_value : geod_mask >-> Z.

(** The eight individual capabilities (everything but [GEOD_NONE] and
    [GEOD_ALL]), in the order of the header. *)
Definition capabilities : list geod_mask :=
  [ GEOD_LATITUDE; GEOD_LONGITUDE; GEOD_AZIMUTH; GEOD_DISTANCE;
    GEOD_DISTANCE_IN; GEOD_REDUCEDLENGTH; GEOD_GEODESICSCALE; GEOD_AREA ].

(** The bitwise union of a list of masks. *)
Definition mask_union (l : list Z) : Z := fold_right Z.lor 0 l.

(** The dependency bits and the selector bit of a mask. *)
Definition dep_bits (m : Z) : Z := Z.land m DEP_FIELD.
Definition out_bits (m : Z) : Z := Z.land m OUT_FIELD.

(** A [caps] argument (a bitor'ed combination of enumerators) requests the
    capability [c] when it holds all the bits of [c]. *)
Definition requests (caps : Z) (c : geod_mask) : Prop := bits_sub c caps.

Definition requestsb (caps : Z) (c : geod_mask) : bool := bits_subb c caps.

(** The capabilities a [caps] argument requests. *)
Definition requested (caps : Z) : list geod_mask :=
  filter (requestsb caps) capabilities.

(** The prerequisites the specification names: distance as input, the reduced
    length and the geodesic scale all need the distance computation. *)
Definition prerequisites (c : geod_mask) : list geod_mask :=
  match c with
  | GEOD_DISTANCE_IN | GEOD_REDUCEDLENGTH | GEOD_GEODESICSCALE => [GEOD_DISTANCE]
  | _ => []
  end.

(** ** [enum geod_flags] *)

Inductive geod_flags : Set :=
| GEOD_NOFLAGS
| GEOD_ARCMODE
| GEOD_LONG_UNROLL.

Definition flag_value (fl : geod_flags) : Z :=
  match fl with
  | GEOD_NOFLAGS     => 0
  | GEOD_ARCMODE     => Z.shiftl 1 0
  | GEOD_LONG_UNROLL => Z.shiftl 1 15
  end.

Coercion flag_value : geod_flags >-> Z.

(** [flags & FLAG], as a C condition. *)
Definition flag_set (flags : Z) (fl : geod_flags) : bool :=
  negb (Z.land flags fl =? 0).

(** ** Combinations of enumerators *)

(** [GEOD_A | GEOD_B | ...]: the [caps] argument built from a list of
    enumerators of [geod_mask], and the [flags] argument built from a list of
    enumerators of [geod_flags]. *)
Definition caps_of (l : list geod_mask) : Z := mask_union (map mask_value l).

Definition flags_of (l : list geod_flags) : Z := mask_union (map flag_value l).

(** [x & y] as a C condition: the two words share a bit. *)
Definition share_bit (x y : Z) : bool := negb (Z.land x y =? 0).

(** [l] holds individual capabilities only (neither [GEOD_NONE] nor
    [GEOD_ALL]). *)
Definition individual (l : list geod_mask) : Prop :=
  Forall (fun c => In c capabilities) l.

(** ** The ellipsoid: [struct geod_geodesic] *)

Module Ellipsoid.

(** [double A3x[6], C3x[15], C4x[21]]: arrays of a fixed size. *)
Fixpoint array (len : nat) : Set :=
  match len with
  | O => unit
  | S k => (float * array k)%type
  end.

Record geod_geodesic : Set := mk {
  a : float;                  (* the equatorial radius *)
  f : float;                  (* the flattening *)
  f1 : float; e2 : float; ep2 : float; n : float;
  b : float; c2 : float; etol2 : float;
  A3x : array 6; C3x : array 15; C4x : array 21
}.

End Ellipsoid.

Abbreviation geod_geodesic := Ellipsoid.geod_geodesic.

(** What geodesic.c computes and the header does not show: the formulas of
    [e2], [ep2], [b], [c2], [etol2] (functions of [a] and [f]) and the three
    coefficient tables, which the specification says depend on the third
    flattening [n] only. *)
Record series_constants : Set := {
  e2_of : float -> float -> float;
  ep2_of : float -> float -> float;
  b_of : float -> float -> float;
  c2_of : float -> float -> float;
  etol2_of : float -> float -> float;
  A3coeff : float -> Ellipsoid.array 6;
  C3coeff : float -> Ellipsoid.array 15;
  C4coeff : float -> Ellipsoid.array 21
}.

(** The outcome of an operation of the specification that can be refused. *)
Inductive geod_error : Set := InvalidEllipsoid.

Inductive result (A : Type) : Type :=
| Ok (x : A)
| Error (e : geod_error).

Arguments Ok {A} x.
Arguments Error {A} e.

Local Open Scope float_scope.

(** [a <= 0 || f >= 1], with the comparisons of binary64 (both are false on a
    NaN). *)
Definition invalid_ellipsoid (a f : float) : bool := (a <=? 0) || (1 <=? f).

Section Init.

Variable K : series_constants.

(** The constants of the ellipsoid [(a, f)], computed once: the
    specification gives [f1 = 1 - f] and [n = f/(2-f)]. *)
Definition ellipsoid_constants (a f : float) : geod_geodesic :=
  let n := f / (2 - f) in
  {| Ellipsoid.a := a;
     Ellipsoid.f := f;
     Ellipsoid.f1 := 1 - f;
     Ellipsoid.e2 := e2_of K a f;
     Ellipsoid.ep2 := ep2_of K a f;
     Ellipsoid.n := n;
     Ellipsoid.b := b_of K a f;
     Ellipsoid.c2 := c2_of K a f;
     Ellipsoid.etol2 := etol2_of K a f;
     Ellipsoid.A3x := A3coeff K n;
     Ellipsoid.C3x := C3coeff K n;
     Ellipsoid.C4x := C4coeff K n |}.

(** Modelled from the spec: the body of [geod_init] and its error result;
    the header has the declaration only,
    [void geod_init(struct geod_geodesic* g, double a, double f)], with no
    error result.  The specification has
    [init(a, f) -> Ellipsoid | error(InvalidEllipsoid)]: the error when
    [a <= 0] or [f >= 1], otherwise the ellipsoid with its constants. *)
Definition geod_init (a f : float) : result geod_geodesic :=
  if invalid_ellipsoid a f then Error InvalidEllipsoid
  else Ok (ellipsoid_constants a f).

(** Modelled from the spec: an operation derived from the ellipsoid, applied
    to the outcome of [init].  The specification has the error "fatal to
    that Ellipsoid value": the operation is defined on the ellipsoid that
    passed the check, and there is nothing to apply it to otherwise. *)
Definition derived_operation {B : Type}
           (r : result geod_geodesic) (op : geod_geodesic -> B) : result B :=
  match r with
  | Ok g => Ok (op g)
  | Error e => Error e
  end.

(** An ellipsoid value is well formed when its equatorial radius is positive,
    its flattening is less than 1, and all its constants and tables are the
    ones computed from these two. *)
Definition well_formed (g : geod_geodesic) : Prop :=
  (0 <? Ellipsoid.a g) = true
  /\ (Ellipsoid.f g <? 1) = true
  /\ g = ellipsoid_constants (Ellipsoid.a g) (Ellipsoid.f g).

End Init.

(** Tables left at zero, to state closed instances. *)
Fixpoint zero_array (len : nat) : Ellipsoid.array len :=
  match len with
  | O => tt
  | S k => (0, zero_array k)
  end.

Definition zero_constants : series_constants :=
  {| e2_of := fun _ _ => 0;
     ep2_of := fun _ _ => 0;
     b_of := fun _ _ => 0;
     c2_of := fun _ _ => 0;
     etol2_of := fun _ _ => 0;
     A3coeff := fun _ => zero_array 6;
     C3coeff := fun _ => zero_array 15;
     C4coeff := fun _ => zero_array 21 |}.

(** ** The general direct problem: [geod_gendirect] *)

(** The values stored through [plat2], ..., [pS12]. *)
Record direct_position : Set := {
  lat2 : float; lon2 : float; azi2 : float; s12 : float;
  m12 : float; M12 : float; M21 : float; S12 : float
}.

(** Which of the "return" arguments are not replaced by 0. *)
Record direct_request : Set := {
  plat2 : bool; plon2 : bool; pazi2 : bool; ps12 : bool;
  pm12 : bool; pM12 : bool; pM21 : bool; pS12 : bool
}.

(** What the call leaves behind each pointer: nothing behind a null one. *)
Record direct_stores : Set := {
  st_lat2 : option float; st_lon2 : option float; st_azi2 : option float;
  st_s12 : option float; st_m12 : option float; st_M12 : option float;
  st_M21 : option float; st_S12 : option float
}.

Definition store (want : bool) (x : float) : option float :=
  if want then Some x else None.

Definition stores (req : direct_request) (p : direct_position) : direct_stores :=
  {| st_lat2 := store (plat2 req) (lat2 p);
     st_lon2 := store (plon2 req) (lon2 p);
     st_azi2 := store (pazi2 req) (azi2 p);
     st_s12 := store (ps12 req) (s12 p);
     st_m12 := store (pm12 req) (m12 p);
     st_M12 := store (pM12 req) (M12 p);
     st_M21 := store (pM21 req) (M21 p);
     st_S12 := store (pS12 req) (S12 p) |}.

Section Direct.

(** The series of geodesic.c are not part of the sources: the conversion of
    a distance into an arc length on the auxiliary sphere (degrees), and
    the position reached after a given arc length; the [bool] is
    [flags & GEOD_LONG_UNROLL]. *)
Variable arc_of_distance : geod_geodesic -> float -> float -> float -> float.
Variable position_at_arc :
  geod_geodesic -> float -> float -> float -> bool -> float -> direct_position.

(** Modelled from the spec: the body of [geod_gendirect], of which the
    header has the declaration and the contract.  [flags & GEOD_ARCMODE]
    determines the meaning of [s12_a12]: an arc length (degrees) when set,
    otherwise a distance that is first converted into an arc length; the
    position is the one reached after that arc length, and the arc length
    is the function value. *)
Definition geod_gendirect (g : geod_geodesic) (lat1 lon1 azi1 : float)
           (flags : Z) (s12_a12 : float) (req : direct_request)
  : float * direct_stores :=
  let a12 :=
    if flag_set flags GEOD_ARCMODE then s12_a12
    else arc_of_distance g lat1 azi1 s12_a12 in
  let p := position_at_arc g lat1 lon1 azi1
                           (flag_set flags GEOD_LONG_UNROLL) a12 in
  (a12, stores req p).

End Direct.

Local Close Scope float_scope.

(** * Properties *)

(** ** Version *)

(** The packed version, and the test the header recommends. *)
Example version_packed :
  Version.GEODESIC_VERSION = Some 1004900
  /\ Version.GEODESIC_VERSION_NUM 1 40 0 = Some 1004000.
Proof. split; reflexivity. Qed.

(** ** Masks and flags *)

Lemma mask_value_unsigned (m : geod_mask) : is_unsigned m.
Proof.
  unfold is_unsigned; destruct m; vm_compute; split;
    first [discriminate | reflexivity].
Qed.

Lemma flag_value_unsigned (fl : geod_flags) : is_unsigned fl.
Proof.
  unfold is_unsigned; destruct fl; vm_compute; split;
    first [discriminate | reflexivity].
Qed.

(** Every enumerator lies within the two fields of [GEOD_ALL]. *)
Lemma mask_value_fields (m : geod_mask) :
  mask_value m = Z.lor (out_bits m) (dep_bits m).
Proof. destruct m; reflexivity. Qed.

Lemma bits_subb_spec (x y : Z) : bits_subb x y = true <-> bits_sub x y.
Proof. unfold bits_subb, bits_sub; apply Z.eqb_eq. Qed.

Lemma requestsb_spec (caps : Z) (c : geod_mask) :
  requestsb caps c = true <-> requests caps c.
Proof. apply bits_subb_spec. Qed.

(** A bit of [x] is a bit of every [y] that contains [x]. *)
Lemma bits_sub_testbit (x y i : Z) :
  bits_sub x y -> Z.testbit x i = true -> Z.testbit y i = true.
Proof.
  unfold bits_sub; intros Hsub Hx.
  rewrite <- Hsub, Z.land_spec in Hx.
  apply andb_true_iff in Hx; tauto.
Qed.

Lemma bits_sub_trans (x y z : Z) : bits_sub x y -> bits_sub y z -> bits_sub x z.
Proof.
  unfold bits_sub; intros Hxy Hyz.
  rewrite <- Hxy at 1.
  rewrite Z.land_assoc, Hyz; exact Hxy.
Qed.

Lemma dep_bits_sub (m : Z) : bits_sub (dep_bits m) m.
Proof.
  unfold bits_sub, dep_bits.
  rewrite Z.land_assoc, Z.land_diag; reflexivity.
Qed.

(** A bit of a union is a bit of one of its members. *)
Lemma mask_union_testbit (l : list Z) (i : Z) :
  Z.testbit (mask_union l) i = existsb (fun x => Z.testbit x i) l.
Proof.
  induction l as [|x l IH]; simpl.
  - apply Z.bits_0.
  - rewrite Z.lor_spec, IH; reflexivity.
Qed.

Lemma existsb_map {A B : Type} (g : A -> B) (p : B -> bool) (l : list A) :
  existsb p (map g l) = existsb (fun x => p (g x)) l.
Proof. induction l as [|x l IH]; simpl; [reflexivity | now rewrite IH]. Qed.

(** The flag [GEOD_LONG_UNROLL] shares no bit with any enumerator of
    [geod_mask]. *)
Lemma long_unroll_land_mask (m : geod_mask) : Z.land GEOD_LONG_UNROLL m = 0.
Proof. destruct m; reflexivity. Qed.

Lemma requestsb_lor_long_unroll (caps : Z) (c : geod_mask) :
  requestsb (Z.lor caps GEOD_LONG_UNROLL) c = requestsb caps c.
Proof.
  unfold requestsb, bits_subb.
  rewrite Z.land_lor_distr_l, long_unroll_land_mask, Z.lor_0_r.
  reflexivity.
Qed.

Lemma prerequisites_distance (c p : geod_mask) :
  In p (prerequisites c) -> p = GEOD_DISTANCE.
Proof.
  destruct c; simpl; intros H; try contradiction;
    destruct H as [H | []]; now subst.
Qed.

Lemma prerequisites_contained (c : geod_mask) :
  Forall (fun p : geod_mask => bits_sub (dep_bits p) c) (prerequisites c).
Proof. destruct c; simpl; repeat constructor. Qed.

(** C5.  Dependency closure of the capability masks.  The bit pattern of
    every capability contains the dependency bits of its prerequisites.  In
    particular [GEOD_DISTANCE_IN], [GEOD_REDUCEDLENGTH] and
    [GEOD_GEODESICSCALE] each contain the low dependency bit [1<<0] of
    [GEOD_DISTANCE]: a [caps] argument that requests one of them has that bit
    set, whether or not it requests [GEOD_DISTANCE] itself. *)
Theorem capability_dependency_closure (caps : Z) (c : geod_mask) :
  In c [GEOD_DISTANCE_IN; GEOD_REDUCEDLENGTH; GEOD_GEODESICSCALE] ->
  requests caps c ->
  (forall c' : geod_mask,
      Forall (fun p : geod_mask => bits_sub (dep_bits p) c') (prerequisites c'))
  /\ prerequisites c = [GEOD_DISTANCE]
  /\ dep_bits GEOD_DISTANCE = Z.shiftl 1 0
  /\ Z.testbit c 0 = true
  /\ bits_sub (dep_bits GEOD_DISTANCE) caps
  /\ Z.testbit caps 0 = true.
Proof.
  intros Hc Hreq.
  assert (Hpre : prerequisites c = [GEOD_DISTANCE]).
  { simpl in Hc; destruct Hc as [<- | [<- | [<- | []]]]; reflexivity. }
  assert (Hbit : Z.testbit c 0 = true).
  { simpl in Hc; destruct Hc as [<- | [<- | [<- | []]]]; reflexivity. }
  assert (Hsub : bits_sub (dep_bits GEOD_DISTANCE) caps).
  { apply bits_sub_trans with (y := mask_value c); [| exact Hreq].
    pose proof (prerequisites_contained c) as Hall.
    rewrite Hpre in Hall; inversion Hall; assumption. }
  repeat split; auto using prerequisites_contained.
  apply (bits_sub_testbit c caps 0 Hreq Hbit).
Qed.

(** The theorem at [caps = GEOD_DISTANCE_IN]: distance as input is requested
    alone, [GEOD_DISTANCE] is not, and the dependency bit of the distance is
    on. *)
Lemma capability_dependency_closure_witness :
  In GEOD_DISTANCE_IN [GEOD_DISTANCE_IN; GEOD_REDUCEDLENGTH; GEOD_GEODESICSCALE]
  /\ requests GEOD_DISTANCE_IN GEOD_DISTANCE_IN
  /\ requestsb GEOD_DISTANCE_IN GEOD_DISTANCE = false
  /\ Z.testbit GEOD_DISTANCE_IN 0 = true.
Proof.
  split; [left; reflexivity |].
  split; [reflexivity |].
  split; [reflexivity |].
  refine (proj2 (proj2 (proj2 (proj2 (proj2
    (capability_dependency_closure GEOD_DISTANCE_IN GEOD_DISTANCE_IN _ _)))))).
  - left; reflexivity.
  - reflexivity.
Defined.

(** C9.  [GEOD_ALL] is exactly the bitwise union of the eight individual
    capability masks, that is [0x7F80 | 0x1F]: it requests every capability,
    and each of its bits is a bit of one of them. *)
Theorem geod_all_is_union :
  mask_value GEOD_ALL = mask_union (map mask_value capabilities)
  /\ mask_value GEOD_ALL = Z.lor 0x7F80 0x1F
  /\ length capabilities = 8%nat
  /\ Forall (requests GEOD_ALL) capabilities
  /\ requested GEOD_ALL = capabilities
  /\ (forall i : Z,
        Z.testbit GEOD_ALL i
        = existsb (fun c : geod_mask => Z.testbit c i) capabilities).
Proof.
  assert (Hunion : mask_value GEOD_ALL = mask_union (map mask_value capabilities))
    by reflexivity.
  repeat split; try reflexivity.
  - unfold capabilities; repeat constructor.
  - intros i.
    rewrite Hunion, mask_union_testbit, existsb_map; reflexivity.
Qed.

(** C10.  [GEOD_LONG_UNROLL] ([1<<15]) is disjoint from every value of
    [geod_mask]: its bitwise AND with [GEOD_ALL] is 0, so or-ing it into any
    [caps] changes neither the capability bits nor the set of requested
    capabilities.  [GEOD_ARCMODE] ([1<<0]) on the contrary is the low
    dependency bit of [GEOD_DISTANCE]. *)
Theorem long_unroll_disjoint_arcmode_overlaps :
  flag_value GEOD_LONG_UNROLL = Z.shiftl 1 15
  /\ Z.land GEOD_LONG_UNROLL GEOD_ALL = 0
  /\ (forall m : geod_mask, Z.land GEOD_LONG_UNROLL m = 0)
  /\ (forall caps : Z,
        Z.land (Z.lor caps GEOD_LONG_UNROLL) GEOD_ALL = Z.land caps GEOD_ALL)
  /\ (forall caps : Z,
        requested (Z.lor caps GEOD_LONG_UNROLL) = requested caps)
  /\ flag_value GEOD_ARCMODE = Z.shiftl 1 0
  /\ flag_value GEOD_ARCMODE = dep_bits GEOD_DISTANCE
  /\ Z.land GEOD_ARCMODE GEOD_DISTANCE = GEOD_ARCMODE.
Proof.
  repeat split; try reflexivity.
  - apply long_unroll_land_mask.
  - intros caps.
    rewrite Z.land_lor_distr_l, (long_unroll_land_mask GEOD_ALL), Z.lor_0_r.
    reflexivity.
  - intros caps; unfold requested.
    apply filter_ext; intros c; apply requestsb_lor_long_unroll.
Qed.

(** ** Comparisons of binary64 *)

Local Open Scope float_scope.

(** Swapping the arguments of a comparison reverses its result; a comparison
    with a NaN has no result either way. *)
Lemma SFcompare_antisym (x y : spec_float) :
  SFcompare y x = option_map CompOpp (SFcompare x y).
Proof.
  destruct x as [sx | sx | | sx mx ex], y as [sy | sy | | sy my ey];
    try reflexivity;
    try (destruct sx; reflexivity);
    try (destruct sy; reflexivity);
    try (destruct sx, sy; reflexivity).
  simpl.
  destruct sx, sy; try reflexivity; simpl;
    rewrite (Z.compare_antisym ey ex);
    destruct (ey ?= ex)%Z; simpl; try reflexivity.
  all: rewrite ?CompOpp_involutive; f_equal.
  all: first [ exact (Pos.compare_cont_antisym mx my Eq)
             | exact (eq_sym (Pos.compare_cont_antisym my mx Eq))
             | exact (Pos.compare_cont_antisym my mx Eq)
             | exact (eq_sym (Pos.compare_cont_antisym mx my Eq)) ].
Qed.

Lemma is_nan_false_compare (x y : float) :
  is_nan x = false -> is_nan y = false ->
  exists c, SFcompare (Prim2SF x) (Prim2SF y) = Some c.
Proof.
  unfold is_nan; rewrite !eqb_spec; unfold SFeqb.
  intros Hx Hy.
  destruct (Prim2SF x) as [sx | sx | | sx mx ex];
    destruct (Prim2SF y) as [sy | sy | | sy my ey];
    simpl in *; try discriminate; eauto.
Qed.

(** On numbers, [!(x <= y)] is [y < x]. *)
Lemma leb_false_ltb (x y : float) :
  is_nan x = false -> is_nan y = false ->
  (x <=? y) = false -> (y <? x) = true.
Proof.
  intros Hx Hy.
  destruct (is_nan_false_compare x y Hx Hy) as [c Hc].
  rewrite leb_spec, ltb_spec; unfold SFleb, SFltb.
  rewrite (SFcompare_antisym (Prim2SF x) (Prim2SF y)), Hc.
  destruct c; simpl; congruence.
Qed.

(** A NaN compares false with everything. *)
Lemma leb_nan_l (x y : float) : is_nan x = true -> (x <=? y) = false.
Proof.
  unfold is_nan; rewrite eqb_spec, leb_spec; unfold SFeqb, SFleb.
  destruct (Prim2SF x) as [sx | sx | | sx mx ex]; simpl.
  - discriminate.
  - destruct sx; discriminate.
  - reflexivity.
  - destruct sx; simpl; rewrite Z.compare_refl, Pos.compare_cont_refl;
      discriminate.
Qed.

Lemma leb_nan_r (x y : float) : is_nan y = true -> (x <=? y) = false.
Proof.
  intros Hy.
  assert (Hnan : Prim2SF y = S754_nan).
  { revert Hy; unfold is_nan; rewrite eqb_spec; unfold SFeqb.
    destruct (Prim2SF y) as [sy | sy | | sy my ey]; simpl.
    - discriminate.
    - destruct sy; discriminate.
    - reflexivity.
    - destruct sy; simpl; rewrite Z.compare_refl, Pos.compare_cont_refl;
        discriminate. }
  rewrite leb_spec, Hnan; unfold SFleb.
  destruct (Prim2SF x); reflexivity.
Qed.

(** ** Construction of the ellipsoid *)

(** On binary64, [y < x] excludes [x <= y]. *)
Lemma ltb_true_leb_false (x y : float) :
  (y <? x) = true -> (x <=? y) = false.
Proof.
  rewrite leb_spec, ltb_spec; unfold SFleb, SFltb.
  rewrite (SFcompare_antisym (Prim2SF x) (Prim2SF y)).
  destruct (SFcompare (Prim2SF x) (Prim2SF y)) as [[ | | ] |]; simpl;
    congruence.
Qed.

Section InitProperties.

Variable K : series_constants.

Lemma invalid_ellipsoid_spec (a f : float) :
  invalid_ellipsoid a f = true <-> (a <=? 0) = true \/ (1 <=? f) = true.
Proof. unfold invalid_ellipsoid; apply orb_true_iff. Qed.

Lemma geod_init_accepted (a f : float) :
  invalid_ellipsoid a f = false ->
  geod_init K a f = Ok (ellipsoid_constants K a f).
Proof. intros H; unfold geod_init; rewrite H; reflexivity. Qed.

Lemma geod_init_refused (a f : float) :
  invalid_ellipsoid a f = true -> geod_init K a f = Error InvalidEllipsoid.
Proof. intros H; unfold geod_init; rewrite H; reflexivity. Qed.

(** A valid pair passes the check. *)
Lemma valid_not_invalid (a f : float) :
  (0 <? a) = true -> (f <? 1) = true -> invalid_ellipsoid a f = false.
Proof.
  intros Ha Hf; unfold invalid_ellipsoid.
  rewrite (ltb_true_leb_false a 0 Ha), (ltb_true_leb_false 1 f Hf).
  reflexivity.
Qed.

(** Two numbers are either refused or valid. *)
Lemma numbers_invalid_or_valid (a f : float) :
  is_nan a = false -> is_nan f = false ->
  ((a <=? 0) = true \/ (1 <=? f) = true)
  \/ ((0 <? a) = true /\ (f <? 1) = true).
Proof.
  intros Ha Hf.
  destruct (a <=? 0) eqn:Hle; [left; left; reflexivity |].
  destruct (1 <=? f) eqn:Hge; [left; right; reflexivity |].
  right; split; apply leb_false_ltb; auto.
Qed.

Lemma ellipsoid_constants_well_formed (a f : float) :
  (0 <? a) = true -> (f <? 1) = true ->
  well_formed K (ellipsoid_constants K a f).
Proof.
  intros Ha Hf; unfold well_formed; simpl.
  repeat split; assumption.
Qed.

(** The comparisons are false on a NaN, so the check lets a NaN through. *)
Lemma geod_init_nan (a f : float) :
  is_nan a = true -> is_nan f = true ->
  geod_init K a f = Ok (ellipsoid_constants K a f).
Proof.
  intros Ha Hf; apply geod_init_accepted.
  unfold invalid_ellipsoid.
  rewrite (leb_nan_l a 0 Ha), (leb_nan_r 1 f Hf); reflexivity.
Qed.

Example geod_init_refusals :
  geod_init K 0 0 = Error InvalidEllipsoid
  /\ geod_init K (-6378137) 0 = Error InvalidEllipsoid
  /\ geod_init K 6378137 1 = Error InvalidEllipsoid
  /\ geod_init K 6378137 2 = Error InvalidEllipsoid
  /\ geod_init K infinity infinity = Error InvalidEllipsoid.
Proof. repeat split; apply geod_init_refused; reflexivity. Qed.


End InitProperties.

Set Warnings "-inexact-float".


Set Warnings "+inexact-float".

(** ** The general direct problem *)

Section DirectProperties.

Variable arc_of_distance : geod_geodesic -> float -> float -> float -> float.
Variable position_at_arc :
  geod_geodesic -> float -> float -> float -> bool -> float -> direct_position.

Let gendirect := geod_gendirect arc_of_distance position_at_arc.

Lemma flag_set_spec (flags : Z) (fl : geod_flags) :
  flag_set flags fl = true <-> Z.land flags fl <> 0%Z.
Proof.
  unfold flag_set; rewrite negb_true_iff; apply Z.eqb_neq.
Qed.

(** [flags & GEOD_ARCMODE] looks at bit 0 only. *)
Lemma flag_set_arcmode (flags : Z) :
  flag_set flags GEOD_ARCMODE = Z.testbit flags 0.
Proof.
  unfold flag_set.
  change (flag_value GEOD_ARCMODE) with (Z.ones 1).
  rewrite Z.land_ones, Z.bit0_eqb by lia.
  change (2 ^ 1)%Z with 2%Z.
  pose proof (Z.mod_pos_bound flags 2 eq_refl) as Hmod.
  destruct (Z.eqb_spec (flags mod 2) 0), (Z.eqb_spec (flags mod 2) 1);
    simpl; try reflexivity; lia.
Qed.

(** C8.  The function value of [geod_gendirect] is the arc length [a12]:
    the position stored through the pointers is the one reached after that
    arc length.  When [flags & GEOD_ARCMODE] is set it is the argument
    [s12_a12] itself, whatever the other bits of [flags]; otherwise it is
    the arc length the distance [s12_a12] converts to. *)
Theorem gendirect_returns_arc_length
        (g : geod_geodesic) (lat1 lon1 azi1 : float)
        (flags : Z) (s12_a12 : float) (req : direct_request) :
  snd (gendirect g lat1 lon1 azi1 flags s12_a12 req)
  = stores req
      (position_at_arc g lat1 lon1 azi1 (flag_set flags GEOD_LONG_UNROLL)
                       (fst (gendirect g lat1 lon1 azi1 flags s12_a12 req)))
  /\ (Z.land flags GEOD_ARCMODE <> 0%Z ->
        fst (gendirect g lat1 lon1 azi1 flags s12_a12 req) = s12_a12)
  /\ (Z.land flags GEOD_ARCMODE = 0%Z ->
        fst (gendirect g lat1 lon1 azi1 flags s12_a12 req)
        = arc_of_distance g lat1 azi1 s12_a12).
Proof.
  unfold gendirect, geod_gendirect; cbn [fst snd].
  split; [reflexivity | split].
  - intros Hset; apply flag_set_spec in Hset; rewrite Hset; reflexivity.
  - intros Hclear.
    assert (Hoff : flag_set flags GEOD_ARCMODE = false).
    { unfold flag_set; rewrite Hclear; reflexivity. }
    rewrite Hoff; reflexivity.
Qed.

(** With both flags set, and with an enumerator of [geod_mask] that holds
    bit 0 passed as [flags], the argument is returned as it is. *)
Example gendirect_arcmode_unroll
        (g : geod_geodesic) (lat1 lon1 azi1 : float) (req : direct_request) :
  fst (gendirect g lat1 lon1 azi1 (Z.lor GEOD_ARCMODE GEOD_LONG_UNROLL) 90 req)
  = 90
  /\ fst (gendirect g lat1 lon1 azi1 GEOD_DISTANCE (-270) req) = -270.
Proof. split; reflexivity. Qed.

End DirectProperties.

(** * Further properties of the header *)

(** ** The packed version number *)

Section VersionProperties.

Import Version VersionFields.

Local Open Scope Z_scope.

Lemma int_result_some (x v : Z) :
  int_result x = Some v <-> v = x /\ INT_MIN <= x <= INT_MAX.
Proof.
  unfold int_result.
  destruct ((INT_MIN <=? x) && (x <=? INT_MAX)) eqn:Hrange.
  - apply andb_true_iff in Hrange; destruct Hrange as [Hlo Hhi].
    apply Z.leb_le in Hlo; apply Z.leb_le in Hhi.
    split; [intros [= <-]; auto | intros [-> _]; reflexivity].
  - split; [discriminate |].
    intros [_ [Hlo Hhi]].
    apply Z.leb_le in Hlo; apply Z.leb_le in Hhi.
    rewrite Hlo, Hhi in Hrange; discriminate.
Qed.

(** When the macro has a value, no step overflowed and the value is the
    number the expression denotes. *)
Lemma version_num_some (a b c v : Z) :
  GEODESIC_VERSION_NUM a b c = Some v ->
  v = (a * 10000 + b) * 100 + c /\ INT_MIN <= v <= INT_MAX.
Proof.
  unfold GEODESIC_VERSION_NUM, int_mul, int_add.
  destruct (int_result (a * 10000)) as [x |] eqn:Hx; simpl; [| discriminate].
  apply int_result_some in Hx; destruct Hx as [-> _].
  destruct (int_result (a * 10000 + b)) as [y |] eqn:Hy; simpl;
    [| discriminate].
  apply int_result_some in Hy; destruct Hy as [-> _].
  destruct (int_result ((a * 10000 + b) * 100)) as [z |] eqn:Hz; simpl;
    [| discriminate].
  apply int_result_some in Hz; destruct Hz as [-> _].
  intros Hv; apply int_result_some in Hv; destruct Hv as [-> Hrange].
  split; [reflexivity | exact Hrange].
Qed.

(** Every version up to major 2146 has a packed number. *)
Lemma version_num_defined (a b c : Z) :
  0 <= a <= 2146 -> fits b c ->
  GEODESIC_VERSION_NUM a b c = Some ((a * 10000 + b) * 100 + c).
Proof.
  unfold fits, MINOR_RANGE, PATCH_RANGE; intros Ha [Hb Hc].
  unfold GEODESIC_VERSION_NUM, int_mul, int_add.
  assert (Hint : forall x, 0 <= x <= 2146999999 -> int_result x = Some x).
  { intros x Hx; apply int_result_some; split; [reflexivity |].
    unfold INT_MIN, INT_MAX; lia. }
  rewrite (Hint (a * 10000)) by lia; simpl.
  rewrite (Hint (a * 10000 + b)) by lia; simpl.
  rewrite (Hint ((a * 10000 + b) * 100)) by lia; simpl.
  apply Hint; lia.
Qed.

(** From major 2148 on the multiplication by 100 overflows [int]; the last
    version with a packed number is 2147.4836.47. *)
Example version_num_overflow :
  GEODESIC_VERSION_NUM 2148 0 0 = None
  /\ GEODESIC_VERSION_NUM 2147 4836 48 = None
  /\ GEODESIC_VERSION_NUM 2147 4836 47 = Some 2147483647.
Proof. repeat split. Qed.

(** X1.  Comparing packed numbers compares versions: when the minor versions
    and patch levels fit their digits and the macro has a value for both
    versions (no overflow of [int]), the packed numbers are in the order of
    the versions, major first, then minor, then patch, and are equal for
    equal versions only.  This is what the test
    [GEODESIC_VERSION >= GEODESIC_VERSION_NUM(1,40,0)] of the header relies
    on. *)
Theorem version_num_order (a b c a' b' c' v v' : Z) :
  fits b c -> fits b' c' ->
  GEODESIC_VERSION_NUM a b c = Some v ->
  GEODESIC_VERSION_NUM a' b' c' = Some v' ->
  (v < v' <-> earlier a b c a' b' c')
  /\ (v = v' <-> a = a' /\ b = b' /\ c = c').
Proof.
  unfold fits, earlier, MINOR_RANGE, PATCH_RANGE.
  intros [Hb Hc] [Hb' Hc'] Hv Hv'.
  apply version_num_some in Hv; destruct Hv as [-> _].
  apply version_num_some in Hv'; destruct Hv' as [-> _].
  split; split; lia.
Qed.

Lemma version_num_order_witness :
  fits 40 0 /\ fits 49 0
  /\ GEODESIC_VERSION_NUM 1 40 0 = Some 1004000
  /\ GEODESIC_VERSION = Some 1004900
  /\ 1004000 < 1004900.
Proof.
  assert (H40 : fits 40 0) by (unfold fits, MINOR_RANGE, PATCH_RANGE; lia).
  assert (H49 : fits 49 0) by (unfold fits, MINOR_RANGE, PATCH_RANGE; lia).
  split; [exact H40 | split; [exact H49 |]].
  split; [reflexivity | split; [reflexivity |]].
  apply (proj1 (version_num_order 1 40 0 1 49 0 1004000 1004900
                                  H40 H49 eq_refl eq_refl)).
  unfold earlier; lia.
Defined.

(** Without the bounds on minor and patch the packing collides. *)
Example version_num_collision :
  GEODESIC_VERSION_NUM 1 0 100 = GEODESIC_VERSION_NUM 1 1 0
  /\ GEODESIC_VERSION_NUM 0 10000 0 = GEODESIC_VERSION_NUM 1 0 0.
Proof. split; reflexivity. Qed.

(** X2.  The packed number reads [MMmmmmpp]: for a major version that is not
    negative, a minor version and a patch level that fit their digits, and a
    packed number [v] the macro computes without overflow, C's [v / 1000000],
    [v / 100 % 10000] and [v % 100] are the major version, the minor version
    and the patch level. *)
Theorem version_num_digits (a b c v : Z) :
  0 <= a -> fits b c ->
  GEODESIC_VERSION_NUM a b c = Some v ->
  major_of v = a /\ minor_of v = b /\ patch_of v = c.
Proof.
  unfold fits, major_of, minor_of, patch_of, MINOR_RANGE, PATCH_RANGE.
  intros Ha [Hb Hc] Hv.
  apply version_num_some in Hv; destruct Hv as [-> _].
  change (10000 * 100) with 1000000.
  assert (Hnonneg : 0 <= (a * 10000 + b) * 100 + c) by lia.
  assert (Hhigh : ((a * 10000 + b) * 100 + c) / 100 = a * 10000 + b).
  { rewrite Z.add_comm, Z.div_add by lia.
    rewrite (Z.div_small c 100) by lia. lia. }
  rewrite !Z.quot_div_nonneg by lia.
  rewrite Hhigh.
  rewrite !Z.rem_mod_nonneg by lia.
  split; [| split].
  - replace ((a * 10000 + b) * 100 + c)
      with ((b * 100 + c) + a * 1000000) by lia.
    rewrite Z.div_add by lia.
    rewrite Z.div_small by lia. lia.
  - rewrite Z.add_comm, Z.mod_add by lia.
    apply Z.mod_small; lia.
  - rewrite Z.add_comm, Z.mod_add by lia.
    apply Z.mod_small; lia.
Qed.

Lemma version_num_digits_witness :
  0 <= GEODESIC_VERSION_MAJOR
  /\ fits GEODESIC_VERSION_MINOR GEODESIC_VERSION_PATCH
  /\ GEODESIC_VERSION = Some 1004900
  /\ major_of 1004900 = 1
  /\ minor_of 1004900 = 49
  /\ patch_of 1004900 = 0.
Proof.
  assert (Ha : 0 <= GEODESIC_VERSION_MAJOR)
    by (unfold GEODESIC_VERSION_MAJOR; lia).
  assert (H : fits GEODESIC_VERSION_MINOR GEODESIC_VERSION_PATCH)
    by (unfold fits, MINOR_RANGE, PATCH_RANGE,
          GEODESIC_VERSION_MINOR, GEODESIC_VERSION_PATCH; lia).
  split; [exact Ha | split; [exact H | split; [reflexivity |]]].
  exact (version_num_digits GEODESIC_VERSION_MAJOR GEODESIC_VERSION_MINOR
                            GEODESIC_VERSION_PATCH 1004900 Ha H eq_refl).
Defined.

(** A negative major version is not read back: C's division truncates
    towards zero. *)
Example version_num_negative_major :
  GEODESIC_VERSION_NUM (-1) 49 7 = Some (-995093)
  /\ major_of (-995093) = 0
  /\ minor_of (-995093) = -9950
  /\ patch_of (-995093) = -93.
Proof. repeat split. Qed.

End VersionProperties.

(** ** Combinations of capabilities and of flags *)

Section Combinations.

Local Open Scope Z_scope.

Lemma bits_sub_spec (x y : Z) :
  bits_sub x y <-> forall n, Z.testbit x n = true -> Z.testbit y n = true.
Proof.
  split.
  - intros Hsub n; apply bits_sub_testbit; exact Hsub.
  - intros Hbits; unfold bits_sub.
    apply Z.bits_inj; intros n.
    rewrite Z.land_spec.
    destruct (Z.testbit x n) eqn:Hx.
    + rewrite (Hbits n Hx); reflexivity.
    + apply andb_false_r.
Qed.

Lemma bits_sub_union_member (x : Z) (l : list Z) :
  In x l -> bits_sub x (mask_union l).
Proof.
  intros Hin; apply bits_sub_spec; intros n Hn.
  rewrite mask_union_testbit.
  apply existsb_exists; exists x; split; assumption.
Qed.

Lemma bits_sub_union_bound (y : Z) (l : list Z) :
  Forall (fun x => bits_sub x y) l -> bits_sub (mask_union l) y.
Proof.
  intros Hall; apply bits_sub_spec; intros n Hn.
  rewrite mask_union_testbit in Hn.
  apply existsb_exists in Hn; destruct Hn as (x & Hx & Hbit).
  rewrite Forall_forall in Hall.
  apply (bits_sub_testbit x y n (Hall x Hx) Hbit).
Qed.

Lemma share_bit_lor (x y z : Z) :
  share_bit (Z.lor x y) z = share_bit x z || share_bit y z.
Proof.
  unfold share_bit.
  rewrite Z.land_lor_distr_l, <- negb_andb; f_equal.
  destruct (Z.eqb_spec (Z.lor (Z.land x z) (Z.land y z)) 0) as [H0 | Hn0].
  - apply Z.lor_eq_0_iff in H0; destruct H0 as [-> ->]; reflexivity.
  - destruct (Z.eqb_spec (Z.land x z) 0) as [Hx | Hx];
      destruct (Z.eqb_spec (Z.land y z) 0) as [Hy | Hy];
      try reflexivity.
    exfalso; apply Hn0; rewrite Hx, Hy; reflexivity.
Qed.

(** A union shares a bit with [z] exactly when one of its members does. *)
Lemma share_bit_union (l : list Z) (z : Z) :
  share_bit (mask_union l) z = existsb (fun x => share_bit x z) l.
Proof.
  induction l as [|x l IH]; simpl.
  - reflexivity.
  - rewrite share_bit_lor, IH; reflexivity.
Qed.

Lemma out_bits_caps_of (l : list geod_mask) :
  out_bits (caps_of l) = mask_union (map (fun c : geod_mask => out_bits c) l).
Proof.
  unfold caps_of, out_bits.
  induction l as [|c l IH]; simpl.
  - reflexivity.
  - rewrite Z.land_lor_distr_l, IH; reflexivity.
Qed.

(** The selector bit of an individual capability belongs to no other one. *)
Lemma selector_unique (x c : geod_mask) :
  In x capabilities -> In c capabilities ->
  share_bit (out_bits x) c = true -> x = c.
Proof.
  intros Hx Hc Hshare.
  destruct x, c; try reflexivity; try (vm_compute in Hshare; discriminate);
    exfalso; simpl in Hx, Hc; intuition discriminate.
Qed.

Lemma selector_present (c : geod_mask) :
  In c capabilities -> share_bit (out_bits c) c = true.
Proof.
  intros Hc; destruct c; try reflexivity;
    exfalso; simpl in Hc; intuition discriminate.
Qed.

Lemma selector_nonzero (c : geod_mask) :
  In c capabilities -> out_bits c <> 0.
Proof.
  intros Hc; destruct c; try discriminate;
    exfalso; simpl in Hc; intuition discriminate.
Qed.

(** Testing the selector field of [caps_of l] against [c] finds [c] in [l]. *)
Lemma selector_test_member (l : list geod_mask) (c : geod_mask) :
  individual l -> In c capabilities ->
  share_bit (out_bits (caps_of l)) c = true -> In c l.
Proof.
  intros Hl Hc Hshare.
  rewrite out_bits_caps_of, share_bit_union, existsb_map in Hshare.
  apply existsb_exists in Hshare; destruct Hshare as (x & Hx & Hbit).
  unfold individual in Hl; rewrite Forall_forall in Hl.
  rewrite <- (selector_unique x c (Hl x Hx) Hc Hbit); exact Hx.
Qed.

(** X3.  A [caps] argument built by or-ing individual capabilities requests
    (holds the whole bit pattern of) an individual capability exactly when
    that capability is one of those or-ed: the dependency bits that the
    capabilities share never make another capability appear requested. *)
Theorem requests_caps_of (l : list geod_mask) (c : geod_mask) :
  individual l -> In c capabilities ->
  (requests (caps_of l) c <-> In c l).
Proof.
  intros Hl Hc; split.
  - intros Hreq.
    apply (selector_test_member l c Hl Hc).
    unfold share_bit, out_bits.
    replace (Z.land (Z.land (caps_of l) OUT_FIELD) c)
      with (Z.land (Z.land (caps_of l) c) OUT_FIELD)
      by (rewrite <- !Z.land_assoc; f_equal; apply Z.land_comm).
    unfold requests, bits_sub in Hreq; rewrite Hreq.
    apply negb_true_iff, Z.eqb_neq, (selector_nonzero c Hc).
  - intros Hin.
    apply bits_sub_union_member, in_map, Hin.
Qed.

Lemma requests_caps_of_witness :
  individual [GEOD_LATITUDE; GEOD_DISTANCE_IN]
  /\ In GEOD_DISTANCE capabilities
  /\ ~ requests (caps_of [GEOD_LATITUDE; GEOD_DISTANCE_IN]) GEOD_DISTANCE.
Proof.
  assert (Hl : individual [GEOD_LATITUDE; GEOD_DISTANCE_IN]).
  { unfold individual; repeat constructor; simpl; tauto. }
  assert (Hc : In GEOD_DISTANCE capabilities) by (simpl; tauto).
  split; [exact Hl | split; [exact Hc |]].
  intros Hreq.
  apply (requests_caps_of _ _ Hl Hc) in Hreq.
  simpl in Hreq; intuition discriminate.
Defined.

(** X4.  For a [caps] argument built by or-ing individual capabilities, the C
    test [(caps & 0x7F80) & GEOD_X] is non-zero exactly when [GEOD_X] is one
    of those or-ed.  The restriction to the selector field matters: see
    [whole_word_test_overlaps]. *)
Theorem selector_test_caps_of (l : list geod_mask) (c : geod_mask) :
  individual l -> In c capabilities ->
  (share_bit (out_bits (caps_of l)) c = true <-> In c l).
Proof.
  intros Hl Hc; split.
  - apply (selector_test_member l c Hl Hc).
  - intros Hin.
    rewrite out_bits_caps_of, share_bit_union, existsb_map.
    apply existsb_exists; exists c; split; [exact Hin |].
    apply (selector_present c Hc).
Qed.

Lemma selector_test_caps_of_witness :
  individual [GEOD_LONGITUDE; GEOD_AREA]
  /\ In GEOD_AREA capabilities
  /\ share_bit (out_bits (caps_of [GEOD_LONGITUDE; GEOD_AREA])) GEOD_AREA = true.
Proof.
  assert (Hl : individual [GEOD_LONGITUDE; GEOD_AREA]).
  { unfold individual; repeat constructor; simpl; tauto. }
  assert (Hc : In GEOD_AREA capabilities) by (simpl; tauto).
  split; [exact Hl | split; [exact Hc |]].
  apply (proj2 (selector_test_caps_of _ _ Hl Hc)).
  simpl; tauto.
Defined.

(** On the whole word the C test answers yes for capabilities that were not
    or-ed in, through the dependency bits. *)
Example whole_word_test_overlaps :
  share_bit (caps_of [GEOD_DISTANCE_IN]) GEOD_DISTANCE = true
  /\ share_bit (caps_of [GEOD_GEODESICSCALE]) GEOD_REDUCEDLENGTH = true
  /\ share_bit (out_bits (caps_of [GEOD_DISTANCE_IN])) GEOD_DISTANCE = false.
Proof. repeat split. Qed.

Lemma mask_within_all (m : geod_mask) : bits_sub m GEOD_ALL.
Proof. destruct m; reflexivity. Qed.

Lemma caps_of_sub_all (l : list geod_mask) : bits_sub (caps_of l) GEOD_ALL.
Proof.
  apply bits_sub_union_bound, Forall_forall.
  intros x Hx; apply in_map_iff in Hx; destruct Hx as (m & <- & _).
  apply mask_within_all.
Qed.

(** X5.  Whatever enumerators of [geod_mask] are or-ed together, the result
    stays within [GEOD_ALL]: it is a 15-bit value, it never reads as
    [GEOD_LONG_UNROLL], and it is recovered from [caps | GEOD_LONG_UNROLL] by
    masking with [GEOD_ALL]. *)
Theorem caps_of_within_all (l : list geod_mask) :
  bits_sub (caps_of l) GEOD_ALL
  /\ 0 <= caps_of l < 2 ^ 15
  /\ flag_set (caps_of l) GEOD_LONG_UNROLL = false
  /\ Z.land (Z.lor (caps_of l) GEOD_LONG_UNROLL) GEOD_ALL = caps_of l.
Proof.
  pose proof (caps_of_sub_all l) as Hsub.
  assert (Hones : bits_sub (caps_of l) (Z.ones 15)).
  { apply bits_sub_trans with (y := mask_value GEOD_ALL); [exact Hsub |].
    reflexivity. }
  assert (Hunroll : Z.land (caps_of l) GEOD_LONG_UNROLL = 0).
  { unfold bits_sub in Hsub; rewrite <- Hsub.
    rewrite <- Z.land_assoc, (Z.land_comm (caps_of l)), Z.land_assoc.
    rewrite (Z.land_comm GEOD_ALL), (long_unroll_land_mask GEOD_ALL).
    apply Z.land_0_l. }
  split; [exact Hsub | split; [| split]].
  - unfold bits_sub in Hones.
    rewrite Z.land_comm, Z.land_ones in Hones by lia.
    rewrite <- Hones; apply Z.mod_pos_bound; lia.
  - unfold flag_set; rewrite Hunroll; reflexivity.
  - rewrite Z.land_lor_distr_l, (long_unroll_land_mask GEOD_ALL), Z.lor_0_r.
    rewrite Z.land_comm; exact Hsub.
Qed.

Lemma flag_share (x fl : geod_flags) :
  share_bit x fl = true <-> fl <> GEOD_NOFLAGS /\ x = fl.
Proof.
  destruct x, fl; vm_compute; split;
    first [ discriminate
          | intros [H1 H2]; first [discriminate | congruence]
          | intros _; split; [discriminate | reflexivity] ].
Qed.

(** X6.  A [flags] argument built by or-ing enumerators of [geod_flags] has
    [flags & FLAG] non-zero exactly for the flags or-ed in; [GEOD_NOFLAGS]
    adds nothing and is never found. *)
Theorem flags_of_decode (l : list geod_flags) (fl : geod_flags) :
  flag_set (flags_of l) fl = true <-> fl <> GEOD_NOFLAGS /\ In fl l.
Proof.
  change (flag_set (flags_of l) fl) with (share_bit (flags_of l) fl).
  unfold flags_of; rewrite share_bit_union, existsb_map.
  rewrite existsb_exists; split.
  - intros (x & Hx & Hbit).
    apply flag_share in Hbit; destruct Hbit as [Hne ->]; auto.
  - intros [Hne Hin]; exists fl; split; [exact Hin |].
    apply flag_share; auto.
Qed.

(** The capabilities whose pattern holds the distance dependency bit. *)
Lemma dependency_bit_holders (c : geod_mask) :
  In c capabilities ->
  (Z.testbit c 0 = true
   <-> In c [GEOD_DISTANCE; GEOD_DISTANCE_IN;
             GEOD_REDUCEDLENGTH; GEOD_GEODESICSCALE]).
Proof.
  intros Hc; destruct c; simpl; split; intros H;
    first [ reflexivity | tauto | discriminate | intuition discriminate
          | exfalso; simpl in Hc; intuition discriminate ].
Qed.

(** X7.  The distance dependency bit [1<<0] of a [caps] argument built from
    individual capabilities is on exactly when one of [GEOD_DISTANCE],
    [GEOD_DISTANCE_IN], [GEOD_REDUCEDLENGTH], [GEOD_GEODESICSCALE] is or-ed
    in: latitude, longitude, azimuth and area never turn it on. *)
Theorem distance_dependency_exact (l : list geod_mask) :
  individual l ->
  (Z.testbit (caps_of l) 0 = true
   <-> exists c, In c l
                 /\ In c [GEOD_DISTANCE; GEOD_DISTANCE_IN;
                          GEOD_REDUCEDLENGTH; GEOD_GEODESICSCALE]).
Proof.
  intros Hl; unfold individual in Hl; rewrite Forall_forall in Hl.
  unfold caps_of; rewrite mask_union_testbit, existsb_map, existsb_exists.
  split; intros (c & Hin & Hc); exists c; split; try exact Hin;
    apply (dependency_bit_holders c (Hl c Hin)); exact Hc.
Qed.

Lemma distance_dependency_exact_witness :
  individual [GEOD_LATITUDE; GEOD_LONGITUDE; GEOD_AZIMUTH; GEOD_AREA]
  /\ Z.testbit
       (caps_of [GEOD_LATITUDE; GEOD_LONGITUDE; GEOD_AZIMUTH; GEOD_AREA]) 0
     <> true.
Proof.
  assert (Hl : individual
                 [GEOD_LATITUDE; GEOD_LONGITUDE; GEOD_AZIMUTH; GEOD_AREA]).
  { unfold individual; repeat constructor; simpl; tauto. }
  split; [exact Hl |].
  intros Hbit.
  apply (distance_dependency_exact _ Hl) in Hbit.
  destruct Hbit as (c & Hin & Hc).
  simpl in Hin, Hc; intuition congruence.
Defined.

End Combinations.
